(** * The fidelity-pair selector of the qubit-allocation notebook

    Source: examples/braket_features/Allocating_Qubits_on_QPU_Devices.ipynb,
    the cell defining [find_qubit_pair].  The notebook is Python 3.7; the
    function reads the global [device], scans the two-qubit calibration
    dictionary for the highest fidelity of a gate, and parses the selected
    pair label such as 21-36 into two integers.

    The Python builtins the function relies on (float comparison, str
    indexing and slicing, [int] on a str, dict lookup and iteration) are
    modelled in module [Py]; the function itself in module [Notebook]. *)

From Stdlib Require Import List String Ascii Bool ZArith QArith Lia Lqa.
From Stdlib Require Import Permutation.
Import ListNotations.

Local Open Scope string_scope.

(* ===================================================================== *)
(** ** Python values and builtins *)
(* ===================================================================== *)

Module Py.

(** A Python float.  The selector only compares floats and copies them, it
    never does arithmetic on them, so a finite float is represented by the
    rational number it denotes; the two infinities and NaN are kept apart
    because comparisons treat them specially. *)
Inductive pyfloat : Type :=
| FNaN
| FInf (negative : bool)
| FFinite (q : Q).

Definition Qlt_bool (x y : Q) : bool := negb (Qle_bool y x).

(** [a > b] on floats: false as soon as one side is NaN. *)
Definition float_gt (a b : pyfloat) : bool :=
  match a, b with
  | FNaN, _ | _, FNaN => false
  | FInf na, FInf nb => negb na && nb
  | FInf na, FFinite _ => negb na
  | FFinite _, FInf nb => nb
  | FFinite x, FFinite y => Qlt_bool y x
  end.

(** [a >= b] on floats. *)
Definition float_ge (a b : pyfloat) : bool :=
  match a, b with
  | FNaN, _ | _, FNaN => false
  | FInf na, FInf nb => negb na || nb
  | FInf na, FFinite _ => negb na
  | FFinite _, FInf nb => nb
  | FFinite x, FFinite y => Qle_bool y x
  end.

(** [a <= b] on floats. *)
Definition float_le (a b : pyfloat) : bool := float_ge b a.

(** The int [0] that [highest_fidelity] starts from; a comparison of a
    float with an int compares the exact values. *)
Definition zero : pyfloat := FFinite 0.
Definition one : pyfloat := FFinite 1.

(** The values a caller can pass for [gate]. *)
#[warnings="-register-all"]
Inductive pyval : Type :=
| PyNone
| PyBool (b : bool)
| PyInt (z : Z)
| PyFloat (f : pyfloat)
| PyStr (s : string)
| PyList (l : list pyval).

(** [isinstance(v, str)] *)
Definition isinstance_str (v : pyval) : bool :=
  match v with PyStr _ => true | _ => false end.

(** The exceptions that can leave the function. *)
Inductive exn : Type :=
| ValueError (msg : string)
| UnboundLocalError (name : string)
| IndexError (msg : string)
| KeyError (key : string).

(** *** str *)

(** [x in l] for a list of str: equality with some element. *)
Definition list_contains (x : string) (l : list string) : bool :=
  existsb (String.eqb x) l.

(** [s[i]] for [i >= 0]: IndexError past the end. *)
Definition str_index (s : string) (i : nat) : exn + ascii :=
  match String.get i s with
  | Some c => inr c
  | None => inl (IndexError "string index out of range")
  end.

(** [s[n:]]: slicing never raises. *)
Fixpoint str_slice_from (n : nat) (s : string) : string :=
  match n, s with
  | O, _ => s
  | S _, EmptyString => EmptyString
  | S n', String _ s' => str_slice_from n' s'
  end.

(** The one-character str holding [c]. *)
Definition str_of_char (c : ascii) : string := String c EmptyString.

(** *** int(str)

    Base-10 conversion as CPython does it: white space is skipped on both
    sides, one sign may precede the digits, single underscores may
    separate digits, anything else is a ValueError.  Characters are the
    code points 0 to 255. *)

(** The characters [int] skips: the ASCII white space of the C parser
    (tab to carriage return, and space) and the two other white-space
    code points below 256, which the conversion first turns into spaces
    (next line U+0085 and no-break space U+00A0).  The separators 28 to
    31 are left alone and make the literal invalid. *)
Definition is_space (c : ascii) : bool :=
  let n := N_of_ascii c in
  ((9 <=? n) && (n <=? 13) || (n =? 32) || (n =? 133) || (n =? 160))%N.

Definition is_digit (c : ascii) : bool :=
  let n := N_of_ascii c in ((48 <=? n) && (n <=? 57))%N.

Definition digit_value (c : ascii) : Z := Z.of_N (N_of_ascii c) - 48.

Fixpoint skip_spaces (s : string) : string :=
  match s with
  | String c s' => if is_space c then skip_spaces s' else s
  | EmptyString => s
  end.

Fixpoint all_spaces (s : string) : bool :=
  match s with
  | String c s' => is_space c && all_spaces s'
  | EmptyString => true
  end.

(** The digits after the first one: returns the value read and what is
    left of the text; [None] when an underscore is not followed by a
    digit. *)
Fixpoint int_digits (acc : Z) (s : string) : option (Z * string) :=
  match s with
  | EmptyString => Some (acc, s)
  | String c s' =>
      if is_digit c then int_digits (10 * acc + digit_value c) s'
      else if Ascii.eqb c "_" then
        match s' with
        | String d s'' =>
            if is_digit d then int_digits (10 * acc + digit_value d) s''
            else None
        | EmptyString => None
        end
      else Some (acc, s)
  end.

(** Digits, then trailing white space only. *)
Definition int_unsigned (s : string) : option Z :=
  match s with
  | String c s' =>
      if is_digit c then
        match int_digits (digit_value c) s' with
        | Some (v, rest) => if all_spaces rest then Some v else None
        | None => None
        end
      else None
  | EmptyString => None
  end.

Definition int_signed (s : string) : option Z :=
  match s with
  | String c s' =>
      if Ascii.eqb c "-" then option_map Z.opp (int_unsigned s')
      else if Ascii.eqb c "+" then int_unsigned s'
      else int_unsigned s
  | EmptyString => None
  end.

(** [repr(s)] of a str.  The text is put between single quotes, or
    between double quotes when it holds a single quote and no double
    quote; the quote in use and the backslash are escaped with a
    backslash, tab, newline and carriage return are written with their
    letter, and the other characters that are not printable (below
    space, 127 to 160, and the soft hyphen 173) as a two-digit
    hexadecimal escape. *)
Definition squote : ascii := "'".
Definition dquote : ascii := ascii_of_N 34.
Definition backslash : ascii := "\".

Fixpoint has_char (c : ascii) (s : string) : bool :=
  match s with
  | EmptyString => false
  | String c' s' => Ascii.eqb c c' || has_char c s'
  end.

Definition hex_digit (n : N) : ascii :=
  match String.get (N.to_nat n) "0123456789abcdef" with
  | Some c => c
  | None => "0"
  end.

Definition escape_char (quote c : ascii) : string :=
  let n := N_of_ascii c in
  if Ascii.eqb c quote || Ascii.eqb c backslash
  then String backslash (String c EmptyString)
  else if (n =? 9)%N then String backslash "t"
  else if (n =? 10)%N then String backslash "n"
  else if (n =? 13)%N then String backslash "r"
  else if ((n <? 32) || (127 <=? n) && (n <=? 160) || (n =? 173))%N
  then String backslash
         (String "x" (String (hex_digit (n / 16)) (String (hex_digit (n mod 16))
                                                   EmptyString)))
  else String c EmptyString.

Fixpoint escape_all (quote : ascii) (s : string) : string :=
  match s with
  | EmptyString => EmptyString
  | String c s' => escape_char quote c ++ escape_all quote s'
  end.

Definition repr (s : string) : string :=
  let quote :=
    if has_char squote s && negb (has_char dquote s) then dquote else squote in
  String quote (escape_all quote s ++ String quote EmptyString).

(** The first [n] characters of a text. *)
Fixpoint str_take (n : nat) (s : string) : string :=
  match n, s with
  | S n', String c s' => String c (str_take n' s')
  | _, _ => EmptyString
  end.

(** The ValueError of [int]: the message shows at most 200 characters of
    the repr of the text. *)
Definition invalid_literal (s : string) : exn :=
  ValueError ("invalid literal for int() with base 10: "
              ++ str_take 200 (repr s)).

(** [int(s)] *)
Definition int (s : string) : exn + Z :=
  match int_signed (skip_spaces s) with
  | Some z => inr z
  | None => inl (invalid_literal s)
  end.

(** *** dict

    A dict with str keys, in insertion order.  A Python dict holds a key
    once; lookup returns the value of the first entry with the key, which
    is then the only one. *)
Definition dict (V : Type) : Type := list (string * V).

Definition keys {V : Type} (d : dict V) : list string := map fst d.

Fixpoint getitem {V : Type} (d : dict V) (k : string) : exn + V :=
  match d with
  | [] => inl (KeyError k)
  | (k', v) :: d' => if String.eqb k k' then inr v else getitem d' k
  end.

(** [k in d.keys()] *)
Definition contains {V : Type} (d : dict V) (k : string) : bool :=
  list_contains k (keys d).

End Py.

(* ===================================================================== *)
(** ** The notebook *)
(* ===================================================================== *)

Module Notebook.
Import Py.

(** The record of one qubit pair: fidelity name (fCZ, fCPHASE, fXY, ...)
    to score. *)
Definition pair_specs : Type := dict pyfloat.

(** The calibration table [device.properties.provider.specs['2Q']]: pair
    label to record. *)
Definition calibration : Type := dict pair_specs.

(** What the function can see of the kernel's state: the calibration data
    behind the global [device], and the other global names. *)
Record world : Type := mkWorld {
  device_specs_2Q : calibration;
  globals : dict pyval
}.

(** The accesses to the device's data that a run performs. *)
Inductive event : Type :=
| LoadCalibration.

(** A computation runs in a world; it ends in a value or an exception,
    leaves a world behind and a log of its accesses. *)
Definition M (A : Type) : Type := world -> (exn + A) * world * list event.

Definition ret {A : Type} (a : A) : M A := fun w => (inr a, w, []).

Definition raise {A : Type} (e : exn) : M A := fun w => (inl e, w, []).

Definition bind {A B : Type} (m : M A) (f : A -> M B) : M B :=
  fun w =>
    let '(r, w1, t1) := m w in
    match r with
    | inl e => (inl e, w1, t1)
    | inr a => let '(r2, w2, t2) := f a w1 in (r2, w2, (t1 ++ t2)%list)
    end.

(** A builtin that touches no state. *)
Definition lift {A : Type} (r : exn + A) : M A := fun w => (r, w, []).

(** [device.properties.provider.specs['2Q']], on a device whose specs
    hold the entry '2Q'; the worlds of this model are those in which the
    subscript succeeds. *)
Definition load_calibration : M calibration :=
  fun w => (inr (device_specs_2Q w), w, [LoadCalibration]).

Notation "x <- m ;; k" := (bind m (fun x => k))
  (at level 61, m at next level, right associativity).
Notation "' p <- m ;; k" := (bind m (fun x => let 'p := x in k))
  (at level 61, p pattern, m at next level, right associativity).

Definition outcome {A : Type} (r : (exn + A) * world * list event) : exn + A :=
  fst (fst r).
Definition final_world {A : Type} (r : (exn + A) * world * list event) : world :=
  snd (fst r).
Definition accesses {A : Type} (r : (exn + A) * world * list event) : list event :=
  snd r.

(** *** find_qubit_pair *)

Definition msg_not_str : string := "The input gate must be a string type.".
Definition msg_not_native : string :=
  "The input gate must be either CPHASE, CZ or XY.".

Definition gate_list : list string := ["CPHASE"; "CZ"; "XY"].

(** The local variables of the scan.  [best_pair] is bound only by the
    assignment inside the loop. *)
Record locals : Type := mkLocals {
  highest_fidelity : pyfloat;
  best_pair : option string
}.

Definition initial_locals : locals :=
  {| highest_fidelity := zero; best_pair := None |}.

(** The body of [for pair in calibration_2Q.keys()]; [pair_key] is the
    loop variable [pair]. *)
Definition scan_body (calibration_2Q : calibration) (gate : string)
    (pair_key : string) (l : locals) : exn + locals :=
  match getitem calibration_2Q pair_key with
  | inl e => inl e
  | inr specs =>
      if contains specs ("f" ++ gate) then
        match getitem specs ("f" ++ gate) with
        | inl e => inl e
        | inr f =>
            if float_gt f (highest_fidelity l)
            then inr {| highest_fidelity := f; best_pair := Some pair_key |}
            else inr l
        end
      else inr l
  end.

Fixpoint scan (calibration_2Q : calibration) (gate : string)
    (pairs : list string) (l : locals) : exn + locals :=
  match pairs with
  | [] => inr l
  | pair_key :: pairs' =>
      match scan_body calibration_2Q gate pair_key l with
      | inl e => inl e
      | inr l' => scan calibration_2Q gate pairs' l'
      end
  end.

(** [while best_pair[i] is not '-': q1 += best_pair[i]; i += 1], run on
    [rest], the part of [best_pair] from index [i] on; the result is the
    final [q1] and [i].  A one-character str is the same object as the
    literal, so [is not] is inequality of characters.  Reading past the
    end raises IndexError, which also ends the loop on a label without a
    hyphen. *)
Fixpoint until_hyphen (rest : string) (q1 : string) (i : nat)
    : exn + (string * nat) :=
  match rest with
  | EmptyString => inl (IndexError "string index out of range")
  | String c rest' =>
      if Ascii.eqb c "-" then inr (q1, i)
      else until_hyphen rest' (q1 ++ str_of_char c) (S i)
  end.

(** The statements after the scan, from [q1 = best_pair[0]] to the two
    [int] calls. *)
Definition split_pair (best_pair : string) : exn + (Z * Z) :=
  match str_index best_pair 0 with
  | inl e => inl e
  | inr c0 =>
      match until_hyphen (str_slice_from 1 best_pair) (str_of_char c0) 1 with
      | inl e => inl e
      | inr (q1, i) =>
          match int q1 with
          | inl e => inl e
          | inr q1 =>
              match int (str_slice_from (i + 1) best_pair) with
              | inl e => inl e
              | inr q2 => inr (q1, q2)
              end
          end
      end
  end.

(** The function.  [isinstance(gate, str)] holds exactly for a [PyStr],
    so the first check is the match on [gate]; the table is loaded only
    after both checks; reading [best_pair] while it is unbound raises
    UnboundLocalError. *)
Definition find_qubit_pair (gate : pyval) : M (Z * Z * pyfloat) :=
  match gate with
  | PyStr gate =>
      if negb (list_contains gate gate_list)
      then raise (ValueError msg_not_native)
      else
        calibration_2Q <- load_calibration ;;
        l <- lift (scan calibration_2Q gate (keys calibration_2Q)
                     initial_locals) ;;
        match best_pair l with
        | None => raise (UnboundLocalError "best_pair")
        | Some best_pair =>
            ' (q1, q2) <- lift (split_pair best_pair) ;;
            ret (q1, q2, highest_fidelity l)
        end
  | _ => raise (ValueError msg_not_str)
  end.

End Notebook.

Import Py Notebook.

(* ===================================================================== *)
(** ** Vocabulary of the properties *)
(* ===================================================================== *)

(** The fidelity that the entry under [pair_key] stores for [gate], if
    the entry exists and has the field. *)
Definition fidelity_of (tbl : calibration) (gate pair_key : string)
    : option pyfloat :=
  match getitem tbl pair_key with
  | inr specs =>
      match getitem specs ("f" ++ gate) with
      | inr f => Some f
      | inl _ => None
      end
  | inl _ => None
  end.

(** The entry under [pair_key] is in the table and defines fidelity [f]
    for [gate]. *)
Definition defines (tbl : calibration) (gate pair_key : string) (f : pyfloat)
    : Prop :=
  In pair_key (keys tbl) /\ fidelity_of tbl gate pair_key = Some f.

(** A score in the interval from 0 to 1. *)
Definition in_unit_interval (f : pyfloat) : bool :=
  float_le zero f && float_le f one.

(** Every score the table stores, under any label and field, lies in
    the interval from 0 to 1. *)
Definition scores_in_unit_interval (tbl : calibration) : Prop :=
  forall k specs field f,
    In (k, specs) tbl -> In (field, f) specs -> in_unit_interval f = true.

(** One of the two errors that the function raises itself. *)
Definition local_error {A : Type} (r : exn + A) : Prop :=
  r = inl (ValueError msg_not_str) \/ r = inl (ValueError msg_not_native).

(** A text made of decimal digits only, and the number it writes. *)
Fixpoint all_digits (s : string) : bool :=
  match s with
  | EmptyString => true
  | String c s' => is_digit c && all_digits s'
  end.

Fixpoint decimal_value (s : string) : Z :=
  match s with
  | EmptyString => 0
  | String c s' =>
      digit_value c * 10 ^ Z.of_nat (String.length s') + decimal_value s'
  end.

(** The label of two qubit numbers. *)
Definition pair_label (d1 d2 : string) : string := d1 ++ "-" ++ d2.

(** A pair label of the form digits, hyphen, digits. *)
Definition label_ok (k : string) : Prop :=
  exists d1 d2, k = pair_label d1 d2 /\ d1 <> "" /\ d2 <> ""
                /\ all_digits d1 = true /\ all_digits d2 = true.

(** The worlds and tables of the examples. *)
Definition world_of (tbl : calibration) : world :=
  {| device_specs_2Q := tbl;
     globals := [("my_bucket", PyStr "amazon-braket-Your-Bucket-Name");
                 ("my_prefix", PyStr "Your-Folder-Name")] |}.

Definition tbl_demo : calibration :=
  [ ("0-1", [("fCZ", FFinite (9 # 10)); ("fXY", FFinite (8 # 10))]);
    ("21-36", [("fCZ", FFinite (95 # 100))]);
    ("10-17", [("fCPHASE", FFinite (7 # 10)); ("fCZ", FFinite (95 # 100))]) ].

Definition tbl_zero : calibration :=
  [ ("0-1", [("fCZ", FFinite 0)]) ].

Definition tbl_zero_tie : calibration :=
  [ ("0-1", [("fCZ", FFinite 0)]); ("2-3", [("fCZ", FFinite 0)]) ].

Definition tbl_no_cz : calibration :=
  [ ("0-1", [("fXY", FFinite (8 # 10))]); ("2-3", [("fCPHASE", FFinite (7 # 10))]) ].

Definition tbl_above_one : calibration :=
  [ ("0-1", [("fCZ", FFinite (3 # 2))]) ].

Definition tbl_bad_labels : calibration :=
  [ ("a-b", [("fCZ", FFinite (1 # 2))]); ("7", [("fXY", FFinite (1 # 2))]) ].

(* ===================================================================== *)
(** ** The cell that picks two neighbouring qubits *)
(* ===================================================================== *)

(** The connectivity graph
    [device.properties.paradigm.connectivity.connectivityGraph]: qubit
    label to the labels of the qubits coupled to it. *)
Definition connectivity : Type := dict (list string).

(** [seq[i]] on a list, for [i >= 0]. *)
Definition list_index {A : Type} (seq : list A) (i : nat) : exn + A :=
  match nth_error seq i with
  | Some x => inr x
  | None => inl (IndexError "list index out of range")
  end.

(** [random.choice(seq)]: IndexError on an empty sequence, otherwise the
    element at an index drawn below [len(seq)].  The draw is [rnd]
    reduced below the length; as [rnd] ranges over the numbers, every
    index the generator can produce is covered. *)
Definition random_choice {A : Type} (seq : list A) (rnd : nat) : exn + A :=
  match seq with
  | [] => inl (IndexError "Cannot choose from an empty sequence")
  | _ :: _ => list_index seq (rnd mod List.length seq)
  end.

(** The three assignments of the cell:
    [q1 = random.choice(list(connectivity_graph))],
    [q2 = int(connectivity_graph[q1][0])], [q1 = int(q1)]; the result is
    the pair passed to [cnot]. *)
Definition neighbouring_qubits (connectivity_graph : connectivity) (rnd : nat)
    : exn + (Z * Z) :=
  match random_choice (keys connectivity_graph) rnd with
  | inl e => inl e
  | inr q1 =>
      match getitem connectivity_graph q1 with
      | inl e => inl e
      | inr coupled =>
          match list_index coupled 0 with
          | inl e => inl e
          | inr first =>
              match int first with
              | inl e => inl e
              | inr q2 =>
                  match int q1 with
                  | inl e => inl e
                  | inr q1 => inr (q1, q2)
                  end
              end
          end
      end
  end.

(** A text without a hyphen. *)
Fixpoint no_hyphen (s : string) : bool :=
  match s with
  | EmptyString => true
  | String c s' => negb (Ascii.eqb c "-") && no_hyphen s'
  end.

(** A non-empty text of digits. *)
Definition digit_text (s : string) : Prop :=
  s <> "" /\ all_digits s = true.

(** More tables and a graph for the examples. *)
Definition tbl_demo_reordered : calibration :=
  [ ("10-17", [("fCPHASE", FFinite (7 # 10)); ("fCZ", FFinite (95 # 100))]);
    ("0-1", [("fCZ", FFinite (9 # 10)); ("fXY", FFinite (8 # 10))]);
    ("21-36", [("fCZ", FFinite (95 # 100))]) ].

Definition tbl_demo_other_fields : calibration :=
  [ ("0-1", [("fXY", FFinite (1 # 10)); ("fCZ", FFinite (9 # 10))]);
    ("21-36", [("fCZ", FFinite (95 # 100)); ("fCPHASE", FNaN)]);
    ("10-17", [("fCZ", FFinite (95 # 100))]) ].

Definition graph_demo : connectivity :=
  [ ("0", ["1"; "7"]); ("1", ["0"; "16"; "2"]); ("16", ["1"; "17"]) ].

Definition graph_isolated : connectivity :=
  [ ("0", ["1"]); ("5", []) ].

(* ===================================================================== *)
(** ** Facts about the builtins *)
(* ===================================================================== *)

Section FloatOrder.

Lemma Qle_boolP (x y : Q) : reflect (x <= y)%Q (Qle_bool x y).
Proof. apply iff_reflect. symmetry. apply Qle_bool_iff. Qed.

Ltac float_cases :=
  unfold float_le, float_ge, float_gt, Qlt_bool in *;
  repeat match goal with
    | b : bool |- _ => destruct b
    | H : context [Qle_bool ?a ?b] |- _ => destruct (Qle_boolP a b)
    | |- context [Qle_bool ?a ?b] => destruct (Qle_boolP a b)
    end;
  simpl in *; try discriminate; try reflexivity; try lra.

Lemma float_gt_irrefl (a : pyfloat) : float_gt a a = false.
Proof. destruct a; float_cases. Qed.

Lemma float_gt_trans (a b c : pyfloat) :
  float_gt a b = true -> float_gt b c = true -> float_gt a c = true.
Proof. destruct a, b, c; intros; float_cases. Qed.

(** Whatever is not above [a] is not above something above [a]. *)
Lemma float_not_gt_mono (x a b : pyfloat) :
  float_gt x a = false -> float_gt b a = true -> float_gt x b = false.
Proof. destruct x, a, b; intros; float_cases. Qed.

(** ... and does not even reach it. *)
Lemma float_not_gt_not_ge (x a b : pyfloat) :
  float_gt x a = false -> float_gt b a = true -> float_ge x b = false.
Proof. destruct x, a, b; intros; float_cases. Qed.

Lemma float_gt_not_ge (a b : pyfloat) :
  float_gt b a = true -> float_ge a b = false.
Proof. destruct a, b; intros; float_cases. Qed.

Lemma float_gt_ge (a b : pyfloat) :
  float_gt a b = true -> float_ge a b = true.
Proof. destruct a, b; intros; float_cases. Qed.

Lemma float_le_not_gt (a b : pyfloat) :
  float_le a b = true -> float_gt a b = false.
Proof. destruct a, b; intros; float_cases. Qed.

Lemma float_ge_not_gt (a b : pyfloat) :
  float_ge a b = false -> float_gt a b = false.
Proof. destruct a, b; intros; float_cases. Qed.

Lemma float_le_trans (a b c : pyfloat) :
  float_le a b = true -> float_le b c = true -> float_le a c = true.
Proof. destruct a, b, c; intros; float_cases. Qed.

End FloatOrder.

Section Dict.

Context {V : Type}.

Lemma list_contains_In (x : string) (l : list string) :
  list_contains x l = true <-> In x l.
Proof.
  unfold list_contains. rewrite existsb_exists. split.
  - intros [y [Hy Heq]]. apply String.eqb_eq in Heq. now subst.
  - intros H. exists x. split; [assumption | apply String.eqb_refl].
Qed.

Lemma list_contains_not_In (x : string) (l : list string) :
  list_contains x l = false <-> ~ In x l.
Proof.
  rewrite <- list_contains_In. destruct (list_contains x l);
    intuition discriminate.
Qed.

Lemma getitem_In (d : dict V) (k : string) :
  In k (keys d) -> exists v, getitem d k = inr v.
Proof.
  induction d as [| [k' v] d IH]; simpl; [tauto |].
  intros H. destruct (String.eqb_spec k k') as [-> | Hne].
  - now exists v.
  - destruct H as [H | H]; [congruence | auto].
Qed.

Lemma getitem_not_In (d : dict V) (k : string) :
  ~ In k (keys d) -> getitem d k = inl (KeyError k).
Proof.
  induction d as [| [k' v] d IH]; simpl; [reflexivity |].
  intros H. destruct (String.eqb_spec k k') as [-> | Hne]; [tauto |].
  apply IH. tauto.
Qed.

Lemma getitem_inr_In (d : dict V) (k : string) (v : V) :
  getitem d k = inr v -> In k (keys d).
Proof.
  induction d as [| [k' v'] d IH]; simpl; [discriminate |].
  destruct (String.eqb_spec k k') as [-> | Hne]; auto.
Qed.

Lemma getitem_inr_entry (d : dict V) (k : string) (v : V) :
  getitem d k = inr v -> In (k, v) d.
Proof.
  induction d as [| [k' v'] d IH]; simpl; [discriminate |].
  destruct (String.eqb_spec k k') as [-> | Hne]; auto.
  intros [= ->]. now left.
Qed.

Lemma contains_getitem (d : dict V) (k : string) :
  contains d k = true <-> exists v, getitem d k = inr v.
Proof.
  unfold contains. rewrite list_contains_In. split.
  - apply getitem_In.
  - intros [v Hv]. eapply getitem_inr_In; eauto.
Qed.

End Dict.

(* ===================================================================== *)
(** ** The scan over the calibration table *)
(* ===================================================================== *)

Section Scan.

Variable tbl : calibration.
Variable gate : string.

Lemma fidelity_of_contains (k : string) (specs : pair_specs) :
  getitem tbl k = inr specs ->
  contains specs ("f" ++ gate) = true <-> exists f, fidelity_of tbl gate k = Some f.
Proof.
  intros Hk. unfold fidelity_of. rewrite Hk, contains_getitem. split.
  - intros [f Hf]. rewrite Hf. now exists f.
  - intros [f Hf]. destruct (getitem specs ("f" ++ gate)); [discriminate |].
    now exists p.
Qed.

(** One round of the loop: either nothing changes, and the entry has no
    fidelity above the running maximum, or both variables are assigned
    from the entry. *)
Lemma scan_body_cases (k : string) (l : locals) :
  In k (keys tbl) ->
  (scan_body tbl gate k l = inr l /\
   forall f, fidelity_of tbl gate k = Some f ->
             float_gt f (highest_fidelity l) = false)
  \/
  (exists f, fidelity_of tbl gate k = Some f /\
             float_gt f (highest_fidelity l) = true /\
             scan_body tbl gate k l
             = inr {| highest_fidelity := f; best_pair := Some k |}).
Proof.
  intros Hin. destruct (getitem_In tbl k Hin) as [specs Hspecs].
  unfold scan_body, fidelity_of. rewrite Hspecs.
  destruct (contains specs ("f" ++ gate)) eqn:Hc.
  - apply contains_getitem in Hc. destruct Hc as [f Hf]. rewrite Hf.
    destruct (float_gt f (highest_fidelity l)) eqn:Hgt.
    + right. exists f. auto.
    + left. split; [reflexivity |]. intros f' [= <-]. assumption.
  - left. split; [reflexivity |]. intros f Hf.
    destruct (getitem specs ("f" ++ gate)) eqn:Hg; [discriminate |].
    assert (contains specs ("f" ++ gate) = true)
      by (apply contains_getitem; eauto).
    congruence.
Qed.

(** The loop over keys of the table it reads never raises. *)
Lemma scan_total (ks : list string) (l : locals) :
  incl ks (keys tbl) -> exists l', scan tbl gate ks l = inr l'.
Proof.
  revert l. induction ks as [| k ks IH]; intros l Hincl; simpl.
  - now exists l.
  - assert (Hk : In k (keys tbl)) by (apply Hincl; now left).
    assert (Hks : incl ks (keys tbl)) by (intros x Hx; apply Hincl; now right).
    destruct (scan_body_cases k l Hk) as [[-> _] | [f [_ [_ ->]]]]; auto.
Qed.

(** After the loop no visited entry lies above [highest_fidelity], and
    [highest_fidelity] has not gone down. *)
Lemma scan_upper (ks : list string) (l l' : locals) :
  incl ks (keys tbl) ->
  scan tbl gate ks l = inr l' ->
  (forall k f, In k ks -> fidelity_of tbl gate k = Some f ->
               float_gt f (highest_fidelity l') = false)
  /\ (forall x, float_gt x (highest_fidelity l) = false ->
                float_gt x (highest_fidelity l') = false).
Proof.
  revert l. induction ks as [| k ks IH]; intros l Hincl; simpl.
  - intros [= <-]. split; [intros ? ? [] | auto].
  - assert (Hk : In k (keys tbl)) by (apply Hincl; now left).
    assert (Hks : incl ks (keys tbl)) by (intros x Hx; apply Hincl; now right).
    destruct (scan_body_cases k l Hk) as [[-> Hle] | [f [Hf [Hgt ->]]]];
      intros Hscan; destruct (IH _ Hks Hscan) as [Hall Hmono]; split.
    + intros k' f' [<- | Hin] Hf'; [apply Hmono; auto | eauto].
    + assumption.
    + intros k' f' [<- | Hin] Hf'; [| eauto].
      apply Hmono. simpl. rewrite Hf in Hf'. injection Hf' as <-.
      apply float_gt_irrefl.
    + intros x Hx. apply Hmono. simpl.
      eapply float_not_gt_mono; eauto.
Qed.

(** What the loop leaves in the two variables: either they are untouched
    and no visited entry lies above the initial [highest_fidelity], or
    they come from the entry at some position of the key list, every
    entry before that position is strictly below it (or NaN), and it is
    above the initial value. *)
Lemma scan_selects (ks : list string) (l l' : locals) :
  incl ks (keys tbl) ->
  scan tbl gate ks l = inr l' ->
  (l' = l /\
   forall k f, In k ks -> fidelity_of tbl gate k = Some f ->
               float_gt f (highest_fidelity l) = false)
  \/
  (exists ks1 p ks2,
      ks = (ks1 ++ p :: ks2)%list /\
      best_pair l' = Some p /\
      fidelity_of tbl gate p = Some (highest_fidelity l') /\
      float_gt (highest_fidelity l') (highest_fidelity l) = true /\
      forall k f, In k ks1 -> fidelity_of tbl gate k = Some f ->
                  float_ge f (highest_fidelity l') = false).
Proof.
  revert l. induction ks as [| k ks IH]; intros l Hincl; simpl.
  - intros [= <-]. left. split; [reflexivity | intros ? ? []].
  - assert (Hk : In k (keys tbl)) by (apply Hincl; now left).
    assert (Hks : incl ks (keys tbl)) by (intros x Hx; apply Hincl; now right).
    destruct (scan_body_cases k l Hk) as [[-> Hle] | [f [Hf [Hgt ->]]]];
      intros Hscan;
      destruct (IH _ Hks Hscan)
        as [[-> Hall] | (ks1 & p & ks2 & -> & Hbp & Hp & Hup & Hbefore)].
    + left. split; [reflexivity |].
      intros k' f' [<- | Hin] Hf'; eauto.
    + right. exists (k :: ks1), p, ks2. repeat split; auto.
      intros k' f' [<- | Hin] Hf'; [| eauto].
      eapply float_not_gt_not_ge; eauto.
    + right. exists [], k, ks. simpl. repeat split; auto.
      intros ? ? [].
    + right. exists (k :: ks1), p, ks2. simpl in Hup. repeat split; auto.
      * eapply float_gt_trans; eauto.
      * intros k' f' [<- | Hin] Hf'; [| eauto].
        rewrite Hf in Hf'. injection Hf' as <-.
        now apply float_gt_not_ge.
Qed.

End Scan.

(* ===================================================================== *)
(** ** Splitting the pair label *)
(* ===================================================================== *)

Section Label.

Lemma digit_chars (c : ascii) :
  is_digit c = true ->
  Ascii.eqb c "-" = false /\ Ascii.eqb c "+" = false
  /\ Ascii.eqb c "_" = false /\ is_space c = false.
Proof.
  destruct c as [[] [] [] [] [] [] [] []]; intros H;
    solve [discriminate H | repeat split; reflexivity].
Qed.

(** The structural loop is the while loop of the source: at index [i] it
    reads [best_pair[i]], stops on a hyphen, and otherwise appends the
    character and goes on at [i + 1]. *)
Lemma until_hyphen_step (best : string) (q1 : string) (i : nat) :
  until_hyphen (str_slice_from i best) q1 i
  = match str_index best i with
    | inl e => inl e
    | inr c =>
        if Ascii.eqb c "-" then inr (q1, i)
        else until_hyphen (str_slice_from (S i) best) (q1 ++ str_of_char c) (S i)
    end.
Proof.
  unfold str_index.
  assert (H : forall n s,
             str_slice_from n s
             = match String.get n s with
               | Some c => String c (str_slice_from (S n) s)
               | None => EmptyString
               end).
  { induction n as [| n IH]; intros [| c s]; simpl; auto. }
  rewrite H. destruct (String.get i best); reflexivity.
Qed.

Lemma until_hyphen_digits (d rest q1 : string) (i : nat) :
  all_digits d = true ->
  until_hyphen (d ++ String "-" rest) q1 i
  = inr (q1 ++ d, i + String.length d)%nat.
Proof.
  revert q1 i. induction d as [| c d IH]; intros q1 i Hd; simpl in *.
  - f_equal. f_equal; [| lia].
    clear. induction q1; simpl; congruence.
  - apply andb_prop in Hd. destruct Hd as [Hc Hd].
    destruct (digit_chars c Hc) as [-> _].
    rewrite IH by assumption. f_equal. f_equal; [| lia].
    clear. induction q1; simpl; congruence.
Qed.

Lemma str_slice_from_app (a b : string) :
  str_slice_from (String.length a) (a ++ b) = b.
Proof. induction a; simpl; auto. Qed.

Lemma int_digits_all (d : string) (acc : Z) :
  all_digits d = true ->
  int_digits acc d
  = Some (acc * 10 ^ Z.of_nat (String.length d) + decimal_value d, EmptyString)%Z.
Proof.
  revert acc. induction d as [| c d IH]; intros acc Hd; simpl in Hd.
  - simpl. do 2 f_equal. lia.
  - apply andb_prop in Hd. destruct Hd as [Hc Hd].
    cbn [int_digits]. rewrite Hc, IH by assumption.
    do 2 f_equal. cbn [String.length decimal_value].
    rewrite Nat2Z.inj_succ, Z.pow_succ_r by lia. ring.
Qed.

(** [int] of a non-empty text of digits is the number it writes. *)
Lemma int_digits_text (d : string) :
  d <> "" -> all_digits d = true -> int d = inr (decimal_value d).
Proof.
  destruct d as [| c d]; [congruence |]. intros _ Hd.
  simpl in Hd. apply andb_prop in Hd. destruct Hd as [Hc Hd].
  destruct (digit_chars c Hc) as (Hm & Hp & _ & Hs).
  unfold int. cbn [skip_spaces]. rewrite Hs.
  unfold int_signed. rewrite Hm, Hp.
  unfold int_unsigned. rewrite Hc, int_digits_all by assumption.
  reflexivity.
Qed.

(** The statements after the scan, on a label of two digit texts. *)
Lemma split_pair_label (d1 d2 : string) :
  d1 <> "" -> d2 <> "" -> all_digits d1 = true -> all_digits d2 = true ->
  split_pair (pair_label d1 d2) = inr (decimal_value d1, decimal_value d2).
Proof.
  intros H1 H2 Hd1 Hd2. unfold split_pair, pair_label.
  destruct d1 as [| c d1]; [congruence |].
  assert (Hd1' : all_digits d1 = true)
    by (simpl in Hd1; apply andb_prop in Hd1; tauto).
  cbn [append str_index String.get str_slice_from].
  rewrite until_hyphen_digits by assumption.
  change (str_of_char c ++ d1) with (String c d1).
  rewrite (int_digits_text (String c d1)) by (assumption || discriminate).
  replace (1 + String.length d1 + 1)%nat
    with (String.length (String c d1 ++ "-")).
  2:{ simpl. clear. induction d1; simpl; lia. }
  replace (String c (d1 ++ String "-" d2)) with ((String c d1 ++ "-") ++ d2).
  2:{ simpl. f_equal. clear. induction d1; simpl; congruence. }
  rewrite str_slice_from_app, int_digits_text by assumption.
  reflexivity.
Qed.

(** The only exceptions of the splitting statements are the IndexError
    of the two indexings and the ValueError of [int]. *)
Lemma until_hyphen_error (rest q1 : string) (i : nat) (e : exn) :
  until_hyphen rest q1 i = inl e -> exists m, e = IndexError m.
Proof.
  revert q1 i. induction rest as [| c rest IH]; intros q1 i; simpl.
  - intros [= <-]. eauto.
  - destruct (Ascii.eqb c "-"); [discriminate | apply IH].
Qed.

Lemma split_pair_error (best : string) (e : exn) :
  split_pair best = inl e ->
  (exists m, e = IndexError m) \/ (exists s, e = invalid_literal s).
Proof.
  unfold split_pair, str_index.
  destruct (String.get 0 best); [| intros [= <-]; eauto].
  destruct (until_hyphen _ _ _) as [e' | [q1 i]] eqn:Hu.
  - intros [= <-]. left. eapply until_hyphen_error; eauto.
  - unfold int.
    destruct (int_signed (skip_spaces q1)); [| intros [= <-]; eauto].
    destruct (int_signed (skip_spaces _)); [discriminate | intros [= <-]; eauto].
Qed.

Lemma invalid_literal_not_local (s : string) :
  invalid_literal s <> ValueError msg_not_str
  /\ invalid_literal s <> ValueError msg_not_native.
Proof. split; discriminate. Qed.

End Label.

(* ===================================================================== *)
(** ** find_qubit_pair *)
(* ===================================================================== *)

Section Selector.

(** A run with one of the three native gates: both checks pass, the
    table is loaded once, and the outcome is that of the scan followed by
    the splitting of the selected label. *)
Lemma find_qubit_pair_native (g : string) (w : world) :
  In g gate_list ->
  find_qubit_pair (PyStr g) w
  = (match scan (device_specs_2Q w) g (keys (device_specs_2Q w))
             initial_locals with
     | inl e => inl e
     | inr l =>
         match best_pair l with
         | None => inl (UnboundLocalError "best_pair")
         | Some best =>
             match split_pair best with
             | inl e => inl e
             | inr (q1, q2) => inr (q1, q2, highest_fidelity l)
             end
         end
     end, w, [LoadCalibration]).
Proof.
  intros Hg. apply list_contains_In in Hg.
  unfold find_qubit_pair. rewrite Hg. cbn [negb].
  unfold bind, load_calibration, lift, ret, raise.
  destruct (scan _ _ _ _) as [e | l]; [reflexivity |].
  destruct (best_pair l) as [best |]; [| reflexivity].
  destruct (split_pair best) as [e | [q1 q2]]; reflexivity.
Qed.

Lemma find_qubit_pair_not_native (s : string) (w : world) :
  ~ In s gate_list ->
  find_qubit_pair (PyStr s) w = (inl (ValueError msg_not_native), w, []).
Proof.
  intros Hs. apply list_contains_not_In in Hs.
  unfold find_qubit_pair. now rewrite Hs.
Qed.

Lemma find_qubit_pair_not_str (v : pyval) (w : world) :
  isinstance_str v = false ->
  find_qubit_pair v w = (inl (ValueError msg_not_str), w, []).
Proof. destruct v; simpl; intros H; try discriminate; reflexivity. Qed.

Lemma gate_cases (v : pyval) :
  isinstance_str v = false
  \/ (exists s, v = PyStr s /\ ~ In s gate_list)
  \/ (exists s, v = PyStr s /\ In s gate_list).
Proof.
  destruct v; auto. right.
  destruct (list_contains s gate_list) eqn:H.
  - right. exists s. split; [reflexivity | now apply list_contains_In].
  - left. exists s. split; [reflexivity | now apply list_contains_not_In].
Qed.

(** The scan of the whole table ends normally. *)
Lemma scan_table (tbl : calibration) (g : string) :
  exists l, scan tbl g (keys tbl) initial_locals = inr l.
Proof. apply scan_total, incl_refl. Qed.

(** [best_pair] stays unbound exactly when no entry of the table has a
    fidelity above 0 for the gate. *)
Lemma scan_unbound_iff (tbl : calibration) (g : string) (l : locals) :
  scan tbl g (keys tbl) initial_locals = inr l ->
  best_pair l = None <->
  (forall k f, defines tbl g k f -> float_gt f zero = false).
Proof.
  intros Hscan.
  destruct (scan_selects tbl g _ _ _ (incl_refl _) Hscan)
    as [[-> Hall] | (ks1 & p & ks2 & Hks & Hbp & Hp & Hup & _)].
  - split; [| reflexivity]. intros _ k f [Hk Hf]. eauto.
  - split; [congruence |]. intros Hall. exfalso.
    assert (Hin : In p (keys tbl)) by (rewrite Hks; apply in_elt).
    specialize (Hall p _ (conj Hin Hp)). simpl in Hup. congruence.
Qed.

(** When [best_pair] is bound, it is the first entry, in the order of
    the table, that carries the highest fidelity, and that fidelity is
    above 0. *)
Lemma scan_bound (tbl : calibration) (g : string) (l : locals) (p : string) :
  scan tbl g (keys tbl) initial_locals = inr l ->
  best_pair l = Some p ->
  defines tbl g p (highest_fidelity l)
  /\ float_gt (highest_fidelity l) zero = true
  /\ (forall k f, defines tbl g k f -> float_gt f (highest_fidelity l) = false)
  /\ exists ks1 ks2,
       keys tbl = (ks1 ++ p :: ks2)%list /\
       forall k f, In k ks1 -> fidelity_of tbl g k = Some f ->
                   float_ge f (highest_fidelity l) = false.
Proof.
  intros Hscan Hbest.
  destruct (scan_upper tbl g _ _ _ (incl_refl _) Hscan) as [Hupper _].
  destruct (scan_selects tbl g _ _ _ (incl_refl _) Hscan)
    as [[-> Hall] | (ks1 & p' & ks2 & Hks & Hbp & Hp & Hup & Hbefore)].
  - discriminate.
  - rewrite Hbest in Hbp. injection Hbp as <-.
    assert (Hin : In p (keys tbl)) by (rewrite Hks; apply in_elt).
    repeat split; auto.
    + intros k f [Hk Hf]. eauto.
    + exists ks1, ks2. auto.
Qed.

(** Outside the all-non-positive case the selector does what its
    docstring says: if some entry has a fidelity above 0 for the gate and
    the labels are two digit texts joined by a hyphen, the function
    returns the two numbers of the first entry, in table order, whose
    fidelity no other entry exceeds, together with that fidelity. *)
Theorem find_qubit_pair_positive_max (g : string) (w : world) :
  let tbl := device_specs_2Q w in
  In g gate_list ->
  (forall k, In k (keys tbl) -> label_ok k) ->
  (exists k f, defines tbl g k f /\ float_gt f zero = true) ->
  exists ks1 d1 d2 ks2 f,
    keys tbl = (ks1 ++ pair_label d1 d2 :: ks2)%list
    /\ defines tbl g (pair_label d1 d2) f
    /\ find_qubit_pair (PyStr g) w
       = (inr (decimal_value d1, decimal_value d2, f), w, [LoadCalibration])
    /\ (forall k f', defines tbl g k f' -> float_gt f' f = false)
    /\ (forall k f', In k ks1 -> fidelity_of tbl g k = Some f' ->
                     float_ge f' f = false).
Proof.
  intros tbl Hg Hlabels (k0 & f0 & Hdef0 & Hpos0).
  destruct (scan_table tbl g) as [l Hscan].
  destruct (best_pair l) as [p |] eqn:Hbest.
  - destruct (scan_bound tbl g l p Hscan Hbest)
      as (Hdef & Hpos & Hmax & ks1 & ks2 & Hks & Hbefore).
    destruct (Hlabels p (proj1 Hdef)) as (d1 & d2 & -> & H1 & H2 & Hd1 & Hd2).
    exists ks1, d1, d2, ks2, (highest_fidelity l). repeat split; auto.
    + apply Hdef.
    + apply Hdef.
    + rewrite find_qubit_pair_native by assumption. fold tbl.
      rewrite Hscan, Hbest, split_pair_label by assumption. reflexivity.
  - apply (scan_unbound_iff tbl g l Hscan) with (k := k0) (f := f0) in Hbest;
      [congruence | assumption].
Qed.

End Selector.

(* ===================================================================== *)
(** ** The properties of the selector *)
(* ===================================================================== *)

Lemma native_no_local_error (g : string) (w : world) :
  In g gate_list -> ~ local_error (outcome (find_qubit_pair (PyStr g) w)).
Proof.
  intros Hg. rewrite find_qubit_pair_native by assumption.
  unfold outcome, local_error. cbn [fst].
  destruct (scan_table (device_specs_2Q w) g) as [l ->].
  destruct (best_pair l) as [best |]; [| intros [H | H]; discriminate H].
  destruct (split_pair best) as [e | [q1 q2]] eqn:Hsplit;
    [| intros [H | H]; discriminate H].
  destruct (split_pair_error _ _ Hsplit) as [[m ->] | [s ->]].
  - intros [H | H]; discriminate H.
  - destruct (invalid_literal_not_local s) as [Hn1 Hn2].
    intros [H | H]; congruence.
Qed.

(** With a native gate the exceptions of the builtins still get through:
    a selected label whose parts are not numbers ends in the ValueError
    of [int], a label without a hyphen in IndexError. *)
Example builtin_errors_pass_through :
  outcome (find_qubit_pair (PyStr "CZ") (world_of tbl_bad_labels))
  = inl (ValueError "invalid literal for int() with base 10: 'a'")
  /\ outcome (find_qubit_pair (PyStr "XY") (world_of tbl_bad_labels))
     = inl (IndexError "string index out of range").
Proof. split; reflexivity. Qed.

(** C1 (the input on which the code departs from the claim).  The table
    with the single entry 0-1 defines a CZ fidelity, namely 0, so that
    entry is the maximal one and the claim promises the pair (0, 1) with
    fidelity 0; the call instead ends in UnboundLocalError for
    [best_pair], after both argument checks passed and the table was
    loaded. *)
Theorem max_selection_fails_on_zero_table :
  In "CZ" gate_list
  /\ defines tbl_zero "CZ" "0-1" (FFinite 0)
  /\ keys tbl_zero = ["0-1"]
  /\ find_qubit_pair (PyStr "CZ") (world_of tbl_zero)
     = (inl (UnboundLocalError "best_pair"), world_of tbl_zero,
        [LoadCalibration]).
Proof.
  repeat split; try reflexivity; simpl; auto.
Qed.

(** C2.  A str gate outside CPHASE, CZ, XY ends in the ValueError of the
    second check; the log of accesses is empty, so the calibration table
    has not been read, and the world is as before. *)
Theorem unknown_gate_rejected (s : string) (w : world) :
  ~ In s gate_list ->
  find_qubit_pair (PyStr s) w = (inl (ValueError msg_not_native), w, [])
  /\ accesses (find_qubit_pair (PyStr s) w) = [].
Proof.
  intros Hs. rewrite find_qubit_pair_not_native by assumption. now split.
Qed.

Lemma unknown_gate_rejected_witness :
  ~ In "CNOT" gate_list
  /\ find_qubit_pair (PyStr "CNOT") (world_of tbl_demo)
     = (inl (ValueError msg_not_native), world_of tbl_demo, [])
  /\ accesses (find_qubit_pair (PyStr "CNOT") (world_of tbl_demo)) = [].
Proof.
  assert (H : ~ In "CNOT" gate_list) by (simpl; intuition discriminate).
  split; [exact H | exact (unknown_gate_rejected "CNOT" (world_of tbl_demo) H)].
Defined.

(** C3.  A gate that is not a str ends in the ValueError of the first
    check. *)
Theorem non_string_gate_rejected (v : pyval) (w : world) :
  isinstance_str v = false ->
  outcome (find_qubit_pair v w) = inl (ValueError msg_not_str).
Proof.
  intros Hv. now rewrite find_qubit_pair_not_str.
Qed.

Lemma non_string_gate_rejected_witness :
  isinstance_str (PyInt 3) = false
  /\ outcome (find_qubit_pair (PyInt 3) (world_of tbl_demo))
     = inl (ValueError msg_not_str).
Proof.
  split; [reflexivity |].
  apply (non_string_gate_rejected (PyInt 3) (world_of tbl_demo)). reflexivity.
Defined.

(** C4.  With a native gate and a table in which no entry defines a
    fidelity for it, the call does not return: it ends in the
    UnboundLocalError of reading [best_pair], which is none of the errors
    the function raises itself; both checks passed and the table was
    loaded. *)
Theorem no_defining_entry_fails (g : string) (w : world) :
  In g gate_list ->
  (forall k f, ~ defines (device_specs_2Q w) g k f) ->
  find_qubit_pair (PyStr g) w
  = (inl (UnboundLocalError "best_pair"), w, [LoadCalibration])
  /\ ~ local_error (outcome (find_qubit_pair (PyStr g) w)).
Proof.
  intros Hg Hnone. split; [| now apply native_no_local_error].
  rewrite find_qubit_pair_native by assumption.
  destruct (scan_table (device_specs_2Q w) g) as [l Hscan]. rewrite Hscan.
  assert (Hb : best_pair l = None).
  { apply (scan_unbound_iff _ _ _ Hscan). intros k f Hd.
    now destruct (Hnone k f). }
  now rewrite Hb.
Qed.

Lemma no_defining_entry_fails_witness :
  In "CZ" gate_list
  /\ (forall k f, ~ defines tbl_no_cz "CZ" k f)
  /\ find_qubit_pair (PyStr "CZ") (world_of tbl_no_cz)
     = (inl (UnboundLocalError "best_pair"), world_of tbl_no_cz,
        [LoadCalibration])
  /\ ~ local_error (outcome (find_qubit_pair (PyStr "CZ") (world_of tbl_no_cz))).
Proof.
  assert (Hg : In "CZ" gate_list) by (simpl; auto).
  assert (Hn : forall k f, ~ defines tbl_no_cz "CZ" k f).
  { intros k f [Hin Hf]. simpl in Hin.
    destruct Hin as [<- | [<- | []]]; vm_compute in Hf; discriminate Hf. }
  split; [exact Hg |]. split; [exact Hn |].
  exact (no_defining_entry_fails "CZ" (world_of tbl_no_cz) Hg Hn).
Defined.

(** C5.  When the scan has selected a label made of a non-empty digit
    text, a hyphen and a non-empty digit text, the splitting statements
    yield the number written before the hyphen and the number written
    after it, and the call returns them as first and second qubit; for
    21-36 these are 21 and 36. *)
Theorem selected_label_parsed (g : string) (w : world) (l : locals)
    (d1 d2 : string) :
  In g gate_list ->
  scan (device_specs_2Q w) g (keys (device_specs_2Q w)) initial_locals = inr l ->
  best_pair l = Some (pair_label d1 d2) ->
  d1 <> "" -> d2 <> "" -> all_digits d1 = true -> all_digits d2 = true ->
  split_pair (pair_label d1 d2) = inr (decimal_value d1, decimal_value d2)
  /\ outcome (find_qubit_pair (PyStr g) w)
     = inr (decimal_value d1, decimal_value d2, highest_fidelity l).
Proof.
  intros Hg Hscan Hbest H1 H2 Hd1 Hd2.
  assert (Hsplit := split_pair_label d1 d2 H1 H2 Hd1 Hd2).
  split; [assumption |].
  rewrite find_qubit_pair_native by assumption.
  unfold outcome. cbn [fst]. now rewrite Hscan, Hbest, Hsplit.
Qed.

Lemma selected_label_parsed_witness :
  split_pair "21-36" = inr (21%Z, 36%Z)
  /\ outcome (find_qubit_pair (PyStr "CZ") (world_of tbl_demo))
     = inr (21%Z, 36%Z, FFinite (95 # 100)).
Proof.
  apply (selected_label_parsed "CZ" (world_of tbl_demo)
           {| highest_fidelity := FFinite (95 # 100);
              best_pair := Some "21-36" |} "21" "36").
  - simpl; auto.
  - reflexivity.
  - reflexivity.
  - discriminate.
  - discriminate.
  - reflexivity.
  - reflexivity.
Defined.

(** C6.  The call ends in one of the two errors the function raises
    itself exactly when the gate is not a str (first message) or is a str
    outside CPHASE, CZ, XY (second message); with a str in the list,
    whatever the table holds, the outcome is neither of them. *)
Theorem local_errors_exactly_bad_gate (v : pyval) (w : world) :
  (outcome (find_qubit_pair v w) = inl (ValueError msg_not_str)
   <-> isinstance_str v = false)
  /\ (outcome (find_qubit_pair v w) = inl (ValueError msg_not_native)
      <-> exists s, v = PyStr s /\ ~ In s gate_list)
  /\ (local_error (outcome (find_qubit_pair v w))
      <-> isinstance_str v = false \/ exists s, v = PyStr s /\ ~ In s gate_list)
  /\ (forall g, v = PyStr g -> In g gate_list ->
                ~ local_error (outcome (find_qubit_pair v w))).
Proof.
  destruct (gate_cases v) as [Hv | [(s & -> & Hs) | (s & -> & Hs)]].
  - rewrite find_qubit_pair_not_str by assumption.
    unfold local_error, outcome. cbn [fst].
    repeat split; auto.
    + discriminate.
    + intros (s & -> & _). discriminate Hv.
    + intros g ->. discriminate Hv.
  - rewrite find_qubit_pair_not_native by assumption.
    unfold local_error, outcome. cbn [fst].
    repeat split; eauto; try discriminate.
    intros g [= <-] Hg. contradiction.
  - pose proof (native_no_local_error s w Hs) as Hloc.
    unfold local_error in *.
    assert (Hnot : ~ exists s', PyStr s = PyStr s' /\ ~ In s' gate_list)
      by (intros (s' & [= <-] & Hs'); contradiction).
    repeat split; try tauto; try discriminate.
    intros [Hv | Hv]; [discriminate Hv | tauto].
Qed.

Lemma local_errors_exactly_bad_gate_witness :
  In "XY" gate_list
  /\ ~ local_error (outcome (find_qubit_pair (PyStr "XY") (world_of tbl_no_cz))).
Proof.
  assert (Hg : In "XY" gate_list) by (simpl; auto).
  split; [exact Hg |].
  exact (proj2 (proj2 (proj2
    (local_errors_exactly_bad_gate (PyStr "XY") (world_of tbl_no_cz))))
    "XY" eq_refl Hg).
Defined.

(** Whenever the call returns, the fidelity it returns is the score that
    the table stores for the gate under some pair label and is strictly
    above 0; it lies between 0 and 1 as soon as every score stored for
    that gate is at most 1. *)
Lemma returned_fidelity_range (v : pyval) (w : world) (q1 q2 : Z)
    (f : pyfloat) :
  outcome (find_qubit_pair v w) = inr (q1, q2, f) ->
  exists g k,
    v = PyStr g /\ In g gate_list
    /\ defines (device_specs_2Q w) g k f
    /\ float_gt f zero = true
    /\ ((forall k' f', defines (device_specs_2Q w) g k' f' ->
                       float_le f' one = true) ->
        in_unit_interval f = true).
Proof.
  destruct (gate_cases v) as [Hv | [(s & -> & Hs) | (s & -> & Hs)]].
  - rewrite find_qubit_pair_not_str by assumption. discriminate.
  - rewrite find_qubit_pair_not_native by assumption. discriminate.
  - rewrite find_qubit_pair_native by assumption.
    unfold outcome. cbn [fst].
    destruct (scan_table (device_specs_2Q w) s) as [l Hscan]. rewrite Hscan.
    destruct (best_pair l) as [best |] eqn:Hbest; [| discriminate].
    destruct (split_pair best) as [e | [q1' q2']]; [discriminate |].
    intros [= -> -> <-].
    destruct (scan_bound _ _ _ _ Hscan Hbest) as (Hdef & Hpos & _).
    exists s, best. repeat split; auto; try apply Hdef.
    intros Hle. unfold in_unit_interval.
    rewrite (Hle _ _ Hdef), andb_true_r.
    unfold float_le. now apply float_gt_ge.
Qed.

(** C7.  On a calibration table as the data model has it, with every
    stored score in the interval from 0 to 1, the fidelity of every
    normal return lies in that interval. *)
Theorem returned_fidelity_in_unit_interval (v : pyval) (w : world)
    (q1 q2 : Z) (f : pyfloat) :
  scores_in_unit_interval (device_specs_2Q w) ->
  outcome (find_qubit_pair v w) = inr (q1, q2, f) ->
  in_unit_interval f = true.
Proof.
  intros Hdom H.
  destruct (returned_fidelity_range _ _ _ _ _ H)
    as (g & k & _ & _ & _ & _ & Hbound).
  apply Hbound. intros k' f' [_ Hf'].
  unfold fidelity_of in Hf'.
  destruct (getitem (device_specs_2Q w) k') as [e | specs] eqn:Hk;
    [discriminate |].
  destruct (getitem specs ("f" ++ g)) as [e | f''] eqn:Hfield;
    [discriminate |].
  injection Hf' as ->.
  apply getitem_inr_entry in Hk. apply getitem_inr_entry in Hfield.
  specialize (Hdom _ _ _ _ Hk Hfield).
  unfold in_unit_interval in Hdom. apply andb_prop in Hdom. tauto.
Qed.

Lemma returned_fidelity_in_unit_interval_witness :
  scores_in_unit_interval tbl_demo
  /\ outcome (find_qubit_pair (PyStr "CZ") (world_of tbl_demo))
     = inr (21%Z, 36%Z, FFinite (95 # 100))
  /\ in_unit_interval (FFinite (95 # 100)) = true.
Proof.
  assert (Hdom : scores_in_unit_interval tbl_demo).
  { intros k specs field f Hk Hf. simpl in Hk.
    destruct Hk as [[= <- <-] | [[= <- <-] | [[= <- <-] | []]]];
      simpl in Hf;
      repeat (destruct Hf as [[= <- <-] | Hf]; [reflexivity |]);
      destruct Hf. }
  split; [exact Hdom |]. split; [reflexivity |].
  exact (returned_fidelity_in_unit_interval (PyStr "CZ") (world_of tbl_demo)
           21 36 (FFinite (95 # 100)) Hdom eq_refl).
Defined.

(** The bound is the table's: the function copies the stored score
    without looking at its size, so a score of 3/2 is returned as it
    is. *)
Example fidelity_above_one_returned :
  outcome (find_qubit_pair (PyStr "CZ") (world_of tbl_above_one))
  = inr (0%Z, 1%Z, FFinite (3 # 2))
  /\ in_unit_interval (FFinite (3 # 2)) = false.
Proof. split; reflexivity. Qed.

(** C8 (the input on which the code departs from the claim).  In the
    table with the entries 0-1 and 2-3, in this order, both CZ
    fidelities are 0, so the two entries share the maximal fidelity and
    the claim promises the first pair, (0, 1); the call instead ends in
    UnboundLocalError for [best_pair]. *)
Theorem tie_at_zero_selects_nothing :
  In "CZ" gate_list
  /\ keys tbl_zero_tie = ["0-1"; "2-3"]
  /\ defines tbl_zero_tie "CZ" "0-1" (FFinite 0)
  /\ defines tbl_zero_tie "CZ" "2-3" (FFinite 0)
  /\ find_qubit_pair (PyStr "CZ") (world_of tbl_zero_tie)
     = (inl (UnboundLocalError "best_pair"), world_of tbl_zero_tie,
        [LoadCalibration]).
Proof.
  repeat split; try reflexivity; simpl; auto.
Qed.

(** C9.  With a native gate, an entry whose fidelity for the gate is at
    most 0 is never the one the scan leaves in [best_pair]; and when
    every entry that defines the gate has a fidelity of at most 0, in
    particular when all of them are 0, the call passes both checks,
    loads the table and ends in UnboundLocalError for [best_pair]. *)
Theorem nonpositive_never_selected (g : string) (w : world) :
  In g gate_list ->
  (forall l k f,
      scan (device_specs_2Q w) g (keys (device_specs_2Q w)) initial_locals
      = inr l ->
      defines (device_specs_2Q w) g k f ->
      float_le f zero = true ->
      best_pair l <> Some k)
  /\ ((forall k f, defines (device_specs_2Q w) g k f ->
                   float_le f zero = true) ->
      find_qubit_pair (PyStr g) w
      = (inl (UnboundLocalError "best_pair"), w, [LoadCalibration])).
Proof.
  intros Hg. split.
  - intros l k f Hscan [Hk Hf] Hle Hbest.
    destruct (scan_bound _ _ _ _ Hscan Hbest) as ([_ Hf'] & Hpos & _).
    rewrite Hf in Hf'. injection Hf' as ->.
    apply float_le_not_gt in Hle. congruence.
  - intros Hall. rewrite find_qubit_pair_native by assumption.
    destruct (scan_table (device_specs_2Q w) g) as [l Hscan]. rewrite Hscan.
    assert (Hb : best_pair l = None).
    { apply (scan_unbound_iff _ _ _ Hscan). intros k f Hd.
      apply float_le_not_gt. eauto. }
    now rewrite Hb.
Qed.

Lemma nonpositive_never_selected_witness :
  In "CZ" gate_list
  /\ (exists k f, defines tbl_zero_tie "CZ" k f)
  /\ (forall k f, defines tbl_zero_tie "CZ" k f -> f = FFinite 0)
  /\ find_qubit_pair (PyStr "CZ") (world_of tbl_zero_tie)
     = (inl (UnboundLocalError "best_pair"), world_of tbl_zero_tie,
        [LoadCalibration]).
Proof.
  assert (Hg : In "CZ" gate_list) by (simpl; auto).
  assert (Hz : forall k f, defines tbl_zero_tie "CZ" k f -> f = FFinite 0).
  { intros k f [Hin Hf]. simpl in Hin.
    destruct Hin as [<- | [<- | []]]; vm_compute in Hf; congruence. }
  split; [exact Hg |]. split.
  { exists "0-1", (FFinite 0). split; [simpl; auto | reflexivity]. }
  split; [exact Hz |].
  apply (proj2 (nonpositive_never_selected "CZ" (world_of tbl_zero_tie) Hg)).
  intros k f Hd. rewrite (Hz k f Hd). reflexivity.
Defined.

(** C10.  Every call, whether it returns or raises, leaves the world as
    it found it: the calibration table and the other globals are the
    same afterwards. *)
Theorem find_qubit_pair_frame (v : pyval) (w : world) :
  final_world (find_qubit_pair v w) = w
  /\ device_specs_2Q (final_world (find_qubit_pair v w)) = device_specs_2Q w
  /\ globals (final_world (find_qubit_pair v w)) = globals w.
Proof.
  assert (H : final_world (find_qubit_pair v w) = w).
  { destruct (gate_cases v) as [Hv | [(s & -> & Hs) | (s & -> & Hs)]].
    - now rewrite find_qubit_pair_not_str.
    - now rewrite find_qubit_pair_not_native.
    - now rewrite find_qubit_pair_native. }
  rewrite H. auto.
Qed.

(** The sample table meets the premises of
    [find_qubit_pair_positive_max]. *)
Example find_qubit_pair_positive_max_demo :
  exists ks1 d1 d2 ks2 f,
    keys tbl_demo = (ks1 ++ pair_label d1 d2 :: ks2)%list
    /\ defines tbl_demo "CZ" (pair_label d1 d2) f
    /\ find_qubit_pair (PyStr "CZ") (world_of tbl_demo)
       = (inr (decimal_value d1, decimal_value d2, f), world_of tbl_demo,
          [LoadCalibration])
    /\ (forall k f', defines tbl_demo "CZ" k f' -> float_gt f' f = false)
    /\ (forall k f', In k ks1 -> fidelity_of tbl_demo "CZ" k = Some f' ->
                     float_ge f' f = false).
Proof.
  apply (find_qubit_pair_positive_max "CZ" (world_of tbl_demo)).
  - simpl; auto.
  - intros k Hk. simpl in Hk.
    destruct Hk as [<- | [<- | [<- | []]]];
      [exists "0", "1" | exists "21", "36" | exists "10", "17"];
      repeat split; discriminate.
  - exists "0-1", (FFinite (9 # 10)). repeat split; simpl; auto.
Qed.

(* ===================================================================== *)
(** ** Further properties of the selector *)
(* ===================================================================== *)

Section SelectorMore.

Lemma float_positive_total (a b : pyfloat) :
  float_gt a zero = true -> float_gt b zero = true ->
  float_gt a b = false -> float_ge b a = true.
Proof.
  unfold zero, float_gt, float_ge, Qlt_bool.
  destruct a as [| [] | x], b as [| [] | y]; simpl; try discriminate; auto.
  intros _ _ H. now apply negb_false_iff in H.
Qed.

Lemma app_cons_cases {A : Type} (xs1 xs2 ys1 ys2 : list A) (x y : A) :
  (xs1 ++ x :: xs2 = ys1 ++ y :: ys2)%list ->
  (xs1 = ys1 /\ x = y /\ xs2 = ys2) \/ In x ys1 \/ In y xs1.
Proof.
  revert ys1. induction xs1 as [| a xs1 IH]; intros [| b ys1]; simpl.
  - intros [= -> ->]. auto.
  - intros [= -> _]. auto.
  - intros [= -> _]. auto.
  - intros [= -> H]. destruct (IH _ H) as [(-> & -> & ->) | [H' | H']]; auto.
Qed.

Lemma decimal_value_nonneg (d : string) :
  all_digits d = true -> (0 <= decimal_value d)%Z.
Proof.
  induction d as [| c d IH]; simpl; [lia |].
  intros H. apply andb_prop in H. destruct H as [Hc Hd].
  assert (0 <= digit_value c)%Z.
  { unfold is_digit in Hc. apply andb_prop in Hc. destruct Hc as [Hc _].
    apply N.leb_le in Hc. unfold digit_value. lia. }
  specialize (IH Hd).
  assert (0 <= 10 ^ Z.of_nat (String.length d))%Z by (apply Z.pow_nonneg; lia).
  nia.
Qed.

(** One round of the loop, written with [fidelity_of]. *)
Lemma scan_body_fidelity (tbl : calibration) (g k : string) (l : locals) :
  In k (keys tbl) ->
  scan_body tbl g k l
  = inr match fidelity_of tbl g k with
        | Some f =>
            if float_gt f (highest_fidelity l)
            then {| highest_fidelity := f; best_pair := Some k |}
            else l
        | None => l
        end.
Proof.
  intros Hin. destruct (scan_body_cases tbl g k l Hin)
    as [[-> Hle] | (f & Hf & Hgt & ->)].
  - destruct (fidelity_of tbl g k) as [f |]; [| reflexivity].
    now rewrite (Hle f eq_refl).
  - now rewrite Hf, Hgt.
Qed.

Lemma scan_same_fidelities (tbl1 tbl2 : calibration) (g : string)
    (ks : list string) (l : locals) :
  incl ks (keys tbl1) -> incl ks (keys tbl2) ->
  (forall k, fidelity_of tbl1 g k = fidelity_of tbl2 g k) ->
  scan tbl1 g ks l = scan tbl2 g ks l.
Proof.
  intros H1 H2 Hfid. revert l.
  induction ks as [| k ks IH]; intros l; simpl; [reflexivity |].
  rewrite !scan_body_fidelity by (apply H1 || apply H2; now left).
  rewrite Hfid. apply IH; intros x Hx; [apply H1 | apply H2]; now right.
Qed.

End SelectorMore.

(** X1.  With a native gate, labels of the form digits-hyphen-digits and
    at least one entry whose fidelity for the gate is above 0, the call
    returns: the two numbers are those written in the label of an entry
    of the table, the fidelity is the one that entry stores, and no entry
    stores a higher one for the gate. *)
Theorem selector_returns_maximum (g : string) (w : world) :
  In g gate_list ->
  (forall k, In k (keys (device_specs_2Q w)) -> label_ok k) ->
  (exists k f, defines (device_specs_2Q w) g k f /\ float_gt f zero = true) ->
  exists d1 d2 f,
    digit_text d1 /\ digit_text d2
    /\ defines (device_specs_2Q w) g (pair_label d1 d2) f
    /\ outcome (find_qubit_pair (PyStr g) w)
       = inr (decimal_value d1, decimal_value d2, f)
    /\ forall k f', defines (device_specs_2Q w) g k f' ->
                    float_gt f' f = false.
Proof.
  intros Hg Hlabels (k0 & f0 & Hdef0 & Hpos0).
  destruct (scan_table (device_specs_2Q w) g) as [l Hscan].
  destruct (best_pair l) as [p |] eqn:Hbest.
  - destruct (scan_bound _ _ _ _ Hscan Hbest) as (Hdef & _ & Hmax & _).
    destruct (Hlabels p (proj1 Hdef)) as (d1 & d2 & -> & H1 & H2 & Hd1 & Hd2).
    exists d1, d2, (highest_fidelity l). unfold digit_text.
    repeat split; auto; try apply Hdef.
    rewrite find_qubit_pair_native by assumption. unfold outcome. cbn [fst].
    now rewrite Hscan, Hbest, split_pair_label.
  - apply (scan_unbound_iff _ _ _ Hscan) with (k := k0) (f := f0) in Hbest;
      [congruence | assumption].
Qed.

Lemma selector_returns_maximum_witness :
  exists d1 d2 f,
    digit_text d1 /\ digit_text d2
    /\ defines tbl_demo "XY" (pair_label d1 d2) f
    /\ outcome (find_qubit_pair (PyStr "XY") (world_of tbl_demo))
       = inr (decimal_value d1, decimal_value d2, f)
    /\ forall k f', defines tbl_demo "XY" k f' -> float_gt f' f = false.
Proof.
  apply (selector_returns_maximum "XY" (world_of tbl_demo)).
  - simpl; auto.
  - intros k Hk. simpl in Hk.
    destruct Hk as [<- | [<- | [<- | []]]];
      [exists "0", "1" | exists "21", "36" | exists "10", "17"];
      repeat split; discriminate.
  - exists "0-1", (FFinite (8 # 10)). repeat split; simpl; auto.
Defined.

(** X2.  The entry returned is the first one, in table order, that
    carries the highest fidelity: if the entry at some position has a
    digits-hyphen-digits label and a fidelity above 0, every entry before
    it is strictly below it (or NaN) and no entry after it is above it,
    then the call returns exactly the numbers of that label and that
    fidelity, whatever the other labels look like. *)
Theorem first_maximal_entry_returned (g : string) (w : world)
    (ks1 ks2 : list string) (d1 d2 : string) (f : pyfloat) :
  In g gate_list ->
  keys (device_specs_2Q w) = (ks1 ++ pair_label d1 d2 :: ks2)%list ->
  digit_text d1 -> digit_text d2 ->
  fidelity_of (device_specs_2Q w) g (pair_label d1 d2) = Some f ->
  float_gt f zero = true ->
  (forall k f', In k ks1 -> fidelity_of (device_specs_2Q w) g k = Some f' ->
                float_ge f' f = false) ->
  (forall k f', In k ks2 -> fidelity_of (device_specs_2Q w) g k = Some f' ->
                float_gt f' f = false) ->
  find_qubit_pair (PyStr g) w
  = (inr (decimal_value d1, decimal_value d2, f), w, [LoadCalibration]).
Proof.
  intros Hg Hkeys [H1 Hd1] [H2 Hd2] Hf Hpos Hbefore Hafter.
  set (tbl := device_specs_2Q w) in *.
  set (k := pair_label d1 d2) in *.
  assert (Hin : In k (keys tbl)) by (rewrite Hkeys; apply in_elt).
  destruct (scan_table tbl g) as [l Hscan].
  destruct (best_pair l) as [p |] eqn:Hbest.
  2:{ apply (scan_unbound_iff _ _ _ Hscan) with (k := k) (f := f) in Hbest;
        [congruence | now split]. }
  destruct (scan_bound _ _ _ _ Hscan Hbest)
    as ([Hp Hfp] & HposF & Hmax & ks1' & ks2' & Hkeys' & Hbefore').
  set (F := highest_fidelity l) in *.
  assert (HfF : float_gt f F = false) by (apply (Hmax k); now split).
  assert (HFf : float_gt F f = false).
  { rewrite Hkeys in Hp. apply in_app_or in Hp.
    destruct Hp as [Hp | [<- | Hp]].
    - apply float_ge_not_gt. eauto.
    - rewrite Hf in Hfp. injection Hfp as <-. apply float_gt_irrefl.
    - eauto. }
  assert (Hge1 : float_ge F f = true) by (apply float_positive_total; auto).
  assert (Hge2 : float_ge f F = true) by (apply float_positive_total; auto).
  rewrite Hkeys in Hkeys'.
  destruct (app_cons_cases _ _ _ _ _ _ Hkeys') as [(_ & <- & _) | [Hk | Hk]].
  - rewrite Hf in Hfp. injection Hfp as HF.
    rewrite find_qubit_pair_native by assumption. fold tbl.
    rewrite Hscan, Hbest. unfold k.
    rewrite split_pair_label by assumption. fold F. now rewrite <- HF.
  - rewrite (Hbefore' _ _ Hk Hf) in Hge2. discriminate.
  - rewrite (Hbefore _ _ Hk Hfp) in Hge1. discriminate.
Qed.

Lemma first_maximal_entry_returned_witness :
  find_qubit_pair (PyStr "CZ") (world_of tbl_demo)
  = (inr (decimal_value "21", decimal_value "36", FFinite (95 # 100)),
     world_of tbl_demo, [LoadCalibration]).
Proof.
  apply (first_maximal_entry_returned "CZ" (world_of tbl_demo)
           ["0-1"] ["10-17"] "21" "36" (FFinite (95 # 100))).
  - simpl; auto.
  - reflexivity.
  - split; [discriminate | reflexivity].
  - split; [discriminate | reflexivity].
  - reflexivity.
  - reflexivity.
  - intros k f' [<- | []] Hf'; vm_compute in Hf'; injection Hf' as <-;
      reflexivity.
  - intros k f' [<- | []] Hf'; vm_compute in Hf'; injection Hf' as <-;
      reflexivity.
Defined.

Section SelectorReturns.

(** What a normal return tells about the run. *)
Lemma find_qubit_pair_returns_inv (v : pyval) (w : world) (q1 q2 : Z)
    (f : pyfloat) :
  outcome (find_qubit_pair v w) = inr (q1, q2, f) ->
  exists g l k,
    v = PyStr g /\ In g gate_list
    /\ scan (device_specs_2Q w) g (keys (device_specs_2Q w)) initial_locals
       = inr l
    /\ best_pair l = Some k
    /\ split_pair k = inr (q1, q2)
    /\ highest_fidelity l = f.
Proof.
  destruct (gate_cases v) as [Hv | [(s & -> & Hs) | (s & -> & Hs)]].
  - rewrite find_qubit_pair_not_str by assumption. discriminate.
  - rewrite find_qubit_pair_not_native by assumption. discriminate.
  - rewrite find_qubit_pair_native by assumption.
    unfold outcome. cbn [fst].
    destruct (scan_table (device_specs_2Q w) s) as [l Hscan]. rewrite Hscan.
    destruct (best_pair l) as [best |] eqn:Hbest; [| discriminate].
    destruct (split_pair best) as [e | [q1' q2']] eqn:Hsplit; [discriminate |].
    intros [= -> -> <-]. exists s, l, best. repeat split; auto.
Qed.

Lemma split_pair_error_exact (best : string) (e : exn) :
  split_pair best = inl e ->
  e = IndexError "string index out of range"
  \/ (exists s, e = invalid_literal s).
Proof.
  unfold split_pair, str_index.
  destruct (String.get 0 best); [| intros [= <-]; auto].
  destruct (until_hyphen _ _ _) as [e' | [q1 i]] eqn:Hu.
  - intros [= <-]. left. revert Hu.
    generalize (str_of_char a) 1%nat (str_slice_from 1 best).
    intros q i rest. revert q i.
    induction rest as [| c rest IH]; intros q i; simpl.
    + now intros [= <-].
    + destruct (Ascii.eqb c "-"); [discriminate | apply IH].
  - unfold int.
    destruct (int_signed (skip_spaces q1)); [| intros [= <-]; eauto].
    destruct (int_signed (skip_spaces _)); [discriminate | intros [= <-]; eauto].
Qed.

End SelectorReturns.

(** X3.  Whenever the call returns, whatever the table holds, the answer
    is right: the gate is a native one, the two numbers are what the
    splitting statements make of the label of an entry of the table, the
    fidelity is the one this entry stores for the gate, no entry stores a
    higher one, and every entry before it in table order is strictly
    below it (or NaN). *)
Theorem normal_return_is_first_maximum (v : pyval) (w : world) (q1 q2 : Z)
    (f : pyfloat) :
  outcome (find_qubit_pair v w) = inr (q1, q2, f) ->
  exists g ks1 k ks2,
    v = PyStr g /\ In g gate_list
    /\ keys (device_specs_2Q w) = (ks1 ++ k :: ks2)%list
    /\ split_pair k = inr (q1, q2)
    /\ fidelity_of (device_specs_2Q w) g k = Some f
    /\ (forall k' f', defines (device_specs_2Q w) g k' f' ->
                      float_gt f' f = false)
    /\ (forall k' f', In k' ks1 ->
                      fidelity_of (device_specs_2Q w) g k' = Some f' ->
                      float_ge f' f = false).
Proof.
  intros H.
  destruct (find_qubit_pair_returns_inv _ _ _ _ _ H)
    as (g & l & k & -> & Hg & Hscan & Hbest & Hsplit & <-).
  destruct (scan_bound _ _ _ _ Hscan Hbest)
    as ([_ Hf] & _ & Hmax & ks1 & ks2 & Hkeys & Hbefore).
  exists g, ks1, k, ks2. repeat split; auto.
Qed.

Lemma normal_return_is_first_maximum_witness :
  exists g ks1 k ks2,
    PyStr "CPHASE" = PyStr g /\ In g gate_list
    /\ keys tbl_demo = (ks1 ++ k :: ks2)%list
    /\ split_pair k = inr (10%Z, 17%Z)
    /\ fidelity_of tbl_demo g k = Some (FFinite (7 # 10))
    /\ (forall k' f', defines tbl_demo g k' f' ->
                      float_gt f' (FFinite (7 # 10)) = false)
    /\ (forall k' f', In k' ks1 -> fidelity_of tbl_demo g k' = Some f' ->
                      float_ge f' (FFinite (7 # 10)) = false).
Proof.
  apply (normal_return_is_first_maximum (PyStr "CPHASE") (world_of tbl_demo)
           10 17 (FFinite (7 # 10))).
  reflexivity.
Defined.

(** X4.  The two dictionary lookups of the loop,
    [calibration_2Q[pair]] and [calibration_2Q[pair]['f'+gate]], never
    raise KeyError: for every table, gate text and values of the two
    variables, each round on a key of the table ends normally, and so
    does the whole loop over the keys of the table. *)
Theorem scan_lookups_never_fail (tbl : calibration) (g : string) (l : locals) :
  (forall k, In k (keys tbl) -> exists l', scan_body tbl g k l = inr l')
  /\ exists l', scan tbl g (keys tbl) l = inr l'.
Proof.
  split.
  - intros k Hk. rewrite scan_body_fidelity by assumption. eauto.
  - apply scan_total, incl_refl.
Qed.

Lemma scan_lookups_never_fail_witness :
  In "21-36" (keys tbl_demo)
  /\ (exists l', scan_body tbl_demo "XY" "21-36" initial_locals = inr l')
  /\ exists l', scan tbl_demo "XY" (keys tbl_demo) initial_locals = inr l'.
Proof.
  assert (Hk : In "21-36" (keys tbl_demo)) by (simpl; auto).
  split; [exact Hk |]. split.
  - exact (proj1 (scan_lookups_never_fail tbl_demo "XY" initial_locals)
             "21-36" Hk).
  - exact (proj2 (scan_lookups_never_fail tbl_demo "XY" initial_locals)).
Defined.

(** X5.  With a native gate the call ends in the UnboundLocalError for
    [best_pair] exactly when no entry of the table stores a fidelity
    above 0 for the gate. *)
Theorem unbound_exactly_without_positive_entry (g : string) (w : world) :
  In g gate_list ->
  outcome (find_qubit_pair (PyStr g) w) = inl (UnboundLocalError "best_pair")
  <-> (forall k f, defines (device_specs_2Q w) g k f ->
                   float_gt f zero = false).
Proof.
  intros Hg. rewrite find_qubit_pair_native by assumption.
  unfold outcome. cbn [fst].
  destruct (scan_table (device_specs_2Q w) g) as [l Hscan]. rewrite Hscan.
  rewrite <- (scan_unbound_iff _ _ _ Hscan).
  destruct (best_pair l) as [best |]; [| tauto].
  split; [| discriminate].
  destruct (split_pair best) as [e | [q1 q2]] eqn:Hsplit; [| discriminate].
  intros [= ->].
  destruct (split_pair_error_exact _ _ Hsplit) as [H | [s H]]; discriminate H.
Qed.

Lemma unbound_exactly_without_positive_entry_witness :
  outcome (find_qubit_pair (PyStr "CZ") (world_of tbl_no_cz))
  = inl (UnboundLocalError "best_pair")
  <-> (forall k f, defines tbl_no_cz "CZ" k f -> float_gt f zero = false).
Proof.
  apply (unbound_exactly_without_positive_entry "CZ" (world_of tbl_no_cz)).
  simpl; auto.
Defined.

(** X6.  When the labels of the table have the form
    digits-hyphen-digits, the two qubit numbers of a normal return are
    not negative. *)
Theorem returned_qubits_nonnegative (v : pyval) (w : world) (q1 q2 : Z)
    (f : pyfloat) :
  (forall k, In k (keys (device_specs_2Q w)) -> label_ok k) ->
  outcome (find_qubit_pair v w) = inr (q1, q2, f) ->
  (0 <= q1)%Z /\ (0 <= q2)%Z.
Proof.
  intros Hlabels H.
  destruct (find_qubit_pair_returns_inv _ _ _ _ _ H)
    as (g & l & k & -> & Hg & Hscan & Hbest & Hsplit & <-).
  destruct (scan_bound _ _ _ _ Hscan Hbest) as ([Hk _] & _).
  destruct (Hlabels k Hk) as (d1 & d2 & -> & H1 & H2 & Hd1 & Hd2).
  rewrite split_pair_label in Hsplit by assumption.
  injection Hsplit as <- <-.
  split; now apply decimal_value_nonneg.
Qed.

Lemma returned_qubits_nonnegative_witness :
  outcome (find_qubit_pair (PyStr "CZ") (world_of tbl_demo))
  = inr (21%Z, 36%Z, FFinite (95 # 100))
  /\ (0 <= 21)%Z /\ (0 <= 36)%Z.
Proof.
  split; [reflexivity |].
  apply (returned_qubits_nonnegative (PyStr "CZ") (world_of tbl_demo) 21 36
           (FFinite (95 # 100))).
  - intros k Hk. simpl in Hk.
    destruct Hk as [<- | [<- | [<- | []]]];
      [exists "0", "1" | exists "21", "36" | exists "10", "17"];
      repeat split; discriminate.
  - reflexivity.
Defined.

Section TableOrder.

Lemma getitem_permutation {V : Type} (d1 d2 : dict V) (k : string) :
  Permutation d1 d2 -> NoDup (keys d1) -> getitem d1 k = getitem d2 k.
Proof.
  induction 1 as [| [kx vx] d1 d2 Hp IH | [kx vx] [ky vy] d | d1 d2 d3 H1 IH1 H2 IH2];
    intros Hnd; simpl in *.
  - reflexivity.
  - inversion Hnd; subst. now rewrite IH.
  - inversion Hnd as [| ? ? Hnotin _]; subst.
    destruct (String.eqb_spec k ky) as [Ey | Hy];
      destruct (String.eqb_spec k kx) as [Ex | Hx]; auto.
    exfalso. apply Hnotin. left. congruence.
  - rewrite IH1 by assumption. apply IH2.
    eapply Permutation_NoDup; [| exact Hnd].
    unfold keys. now apply Permutation_map.
Qed.

Lemma defines_permutation (tbl1 tbl2 : calibration) (g k : string)
    (f : pyfloat) :
  Permutation tbl1 tbl2 -> NoDup (keys tbl1) ->
  defines tbl1 g k f -> defines tbl2 g k f.
Proof.
  intros Hp Hnd [Hin Hf]. split.
  - eapply Permutation_in; [| exact Hin]. unfold keys. now apply Permutation_map.
  - unfold fidelity_of in *.
    now rewrite <- (getitem_permutation tbl1 tbl2 k Hp Hnd).
Qed.

End TableOrder.

(** X7.  The fidelity returned does not depend on the order of the
    table: if the call returns on a table with distinct
    digits-hyphen-digits labels, it also returns on every reordering of
    that table, and the two fidelities are equal as numbers (neither is
    above the other).  Only the pair may differ, when several entries
    share the highest fidelity. *)
Theorem fidelity_independent_of_order (g : string) (w1 w2 : world)
    (q1 q2 : Z) (f1 : pyfloat) :
  Permutation (device_specs_2Q w1) (device_specs_2Q w2) ->
  NoDup (keys (device_specs_2Q w1)) ->
  (forall k, In k (keys (device_specs_2Q w1)) -> label_ok k) ->
  outcome (find_qubit_pair (PyStr g) w1) = inr (q1, q2, f1) ->
  exists q1' q2' f2,
    outcome (find_qubit_pair (PyStr g) w2) = inr (q1', q2', f2)
    /\ float_gt f1 f2 = false /\ float_gt f2 f1 = false.
Proof.
  intros Hperm Hnd Hlabels H.
  destruct (find_qubit_pair_returns_inv _ _ _ _ _ H)
    as (g' & l1 & k1 & [= <-] & Hg & Hscan1 & Hbest1 & _ & <-).
  destruct (scan_bound _ _ _ _ Hscan1 Hbest1) as (Hdef1 & Hpos1 & Hmax1 & _).
  assert (Hdef12 := defines_permutation _ _ _ _ _ Hperm Hnd Hdef1).
  assert (Hnd2 : NoDup (keys (device_specs_2Q w2))).
  { eapply Permutation_NoDup; [| exact Hnd].
    unfold keys. now apply Permutation_map. }
  destruct (scan_table (device_specs_2Q w2) g) as [l2 Hscan2].
  destruct (best_pair l2) as [k2 |] eqn:Hbest2.
  2:{ apply (scan_unbound_iff _ _ _ Hscan2) with (k := k1)
        (f := highest_fidelity l1) in Hbest2; [congruence | assumption]. }
  destruct (scan_bound _ _ _ _ Hscan2 Hbest2) as (Hdef2 & _ & Hmax2 & _).
  assert (Hdef21 := defines_permutation _ _ _ _ _
                      (Permutation_sym Hperm) Hnd2 Hdef2).
  destruct (Hlabels k2 (proj1 Hdef21)) as (d1 & d2 & -> & H1 & H2 & Hd1 & Hd2).
  exists (decimal_value d1), (decimal_value d2), (highest_fidelity l2).
  repeat split; eauto.
  rewrite find_qubit_pair_native by assumption. unfold outcome. cbn [fst].
  now rewrite Hscan2, Hbest2, split_pair_label.
Qed.

Lemma fidelity_independent_of_order_witness :
  outcome (find_qubit_pair (PyStr "CZ") (world_of tbl_demo))
  = inr (21%Z, 36%Z, FFinite (95 # 100))
  /\ exists q1' q2' f2,
       outcome (find_qubit_pair (PyStr "CZ") (world_of tbl_demo_reordered))
       = inr (q1', q2', f2)
       /\ float_gt (FFinite (95 # 100)) f2 = false
       /\ float_gt f2 (FFinite (95 # 100)) = false.
Proof.
  split; [reflexivity |].
  apply (fidelity_independent_of_order "CZ" (world_of tbl_demo)
           (world_of tbl_demo_reordered) 21 36 (FFinite (95 # 100))).
  - unfold world_of, tbl_demo, tbl_demo_reordered. cbn [device_specs_2Q].
    eapply perm_trans; [apply perm_skip, perm_swap | apply perm_swap].
  - simpl. repeat constructor; simpl; intuition discriminate.
  - intros k Hk. simpl in Hk.
    destruct Hk as [<- | [<- | [<- | []]]];
      [exists "0", "1" | exists "21", "36" | exists "10", "17"];
      repeat split; discriminate.
  - reflexivity.
Defined.

(** X8.  The search for a gate looks at nothing but the order of the
    pair labels and the field of that gate: two tables with the same
    labels in the same order that agree on this field under every label
    give the same outcome, whatever their other fields hold. *)
Theorem selection_ignores_other_fields (g : string) (w1 w2 : world) :
  keys (device_specs_2Q w1) = keys (device_specs_2Q w2) ->
  (forall k, fidelity_of (device_specs_2Q w1) g k
             = fidelity_of (device_specs_2Q w2) g k) ->
  outcome (find_qubit_pair (PyStr g) w1)
  = outcome (find_qubit_pair (PyStr g) w2).
Proof.
  intros Hkeys Hfid.
  destruct (gate_cases (PyStr g)) as [Hv | [(s & [= <-] & Hs) | (s & [= <-] & Hs)]].
  - discriminate Hv.
  - now rewrite !find_qubit_pair_not_native.
  - rewrite !find_qubit_pair_native by assumption. unfold outcome. cbn [fst].
    rewrite <- Hkeys.
    rewrite (scan_same_fidelities (device_specs_2Q w1) (device_specs_2Q w2));
      auto.
    + apply incl_refl.
    + rewrite Hkeys. apply incl_refl.
Qed.

Lemma selection_ignores_other_fields_witness :
  outcome (find_qubit_pair (PyStr "CZ") (world_of tbl_demo))
  = outcome (find_qubit_pair (PyStr "CZ") (world_of tbl_demo_other_fields)).
Proof.
  apply (selection_ignores_other_fields "CZ" (world_of tbl_demo)
           (world_of tbl_demo_other_fields)).
  - reflexivity.
  - intros k. unfold fidelity_of, world_of, tbl_demo, tbl_demo_other_fields.
    cbn [device_specs_2Q getitem].
    destruct (String.eqb k "0-1"); [reflexivity |].
    destruct (String.eqb k "21-36"); [reflexivity |].
    destruct (String.eqb k "10-17"); reflexivity.
Defined.

(* ===================================================================== *)
(** ** Further properties of the label splitting *)
(* ===================================================================== *)

Section LabelMore.

Lemma until_hyphen_no_hyphen (t rest q1 : string) (i : nat) :
  no_hyphen t = true ->
  until_hyphen (t ++ String "-" rest) q1 i
  = inr (q1 ++ t, i + String.length t)%nat.
Proof.
  revert q1 i. induction t as [| c t IH]; intros q1 i Ht; simpl in *.
  - f_equal. f_equal; [| lia].
    clear. induction q1; simpl; congruence.
  - apply andb_prop in Ht. destruct Ht as [Hc Ht].
    apply negb_true_iff in Hc. rewrite Hc.
    rewrite IH by assumption. f_equal. f_equal; [| lia].
    clear. induction q1; simpl; congruence.
Qed.

Lemma until_hyphen_runs_out (t q1 : string) (i : nat) :
  no_hyphen t = true ->
  until_hyphen t q1 i = inl (IndexError "string index out of range").
Proof.
  revert q1 i. induction t as [| c t IH]; intros q1 i Ht; simpl in *.
  - reflexivity.
  - apply andb_prop in Ht. destruct Ht as [Hc Ht].
    apply negb_true_iff in Hc. rewrite Hc. now apply IH.
Qed.

End LabelMore.

(** X9.  The label is cut at the first hyphen that follows its first
    character; the first character is taken without being looked at, so
    a leading hyphen becomes the sign of the first number.  The text
    before the cut goes to [int] first, the text after it second, and the
    first failure wins. *)
Theorem split_pair_at_first_hyphen (c : ascii) (t r : string) :
  no_hyphen t = true ->
  split_pair (String c t ++ "-" ++ r)
  = match int (String c t) with
    | inl e => inl e
    | inr a =>
        match int r with
        | inl e => inl e
        | inr b => inr (a, b)
        end
    end.
Proof.
  intros Ht. unfold split_pair.
  cbn [append str_index String.get str_slice_from].
  rewrite until_hyphen_no_hyphen by assumption.
  change (str_of_char c ++ t) with (String c t).
  replace (1 + String.length t + 1)%nat
    with (String.length (String c t ++ "-")).
  2:{ simpl. clear. induction t; simpl; lia. }
  replace (String c (t ++ String "-" r)) with ((String c t ++ "-") ++ r).
  2:{ simpl. f_equal. clear. induction t; simpl; congruence. }
  now rewrite str_slice_from_app.
Qed.

Lemma split_pair_at_first_hyphen_witness :
  split_pair "-1--2" = inr ((-1)%Z, (-2)%Z).
Proof.
  apply (split_pair_at_first_hyphen "-" "1" "-2"). reflexivity.
Defined.

(** X10.  A label with no hyphen after its first character, the empty
    label included, ends the splitting in IndexError: the loop runs off
    the end of the text (or the first indexing fails). *)
Theorem split_pair_without_hyphen (best : string) :
  no_hyphen (str_slice_from 1 best) = true ->
  split_pair best = inl (IndexError "string index out of range").
Proof.
  intros H. unfold split_pair, str_index.
  destruct best as [| c t]; [reflexivity |].
  cbn [String.get]. now rewrite until_hyphen_runs_out.
Qed.

Lemma split_pair_without_hyphen_witness :
  split_pair "-12" = inl (IndexError "string index out of range").
Proof.
  apply (split_pair_without_hyphen "-12"). reflexivity.
Defined.

(* ===================================================================== *)
(** ** The neighbouring qubits of the manual allocation *)
(* ===================================================================== *)

Section Neighbours.

Lemma random_choice_In {A : Type} (seq : list A) (rnd : nat) :
  seq <> [] -> exists x, random_choice seq rnd = inr x /\ In x seq.
Proof.
  destruct seq as [| a seq]; [congruence |]. intros _.
  unfold random_choice, list_index.
  destruct (nth_error (a :: seq) (rnd mod List.length (a :: seq))) as [x |] eqn:Hn.
  - exists x. split; [reflexivity |]. eapply nth_error_In; eauto.
  - apply nth_error_None in Hn.
    assert (rnd mod List.length (a :: seq) < List.length (a :: seq))%nat
      by (apply Nat.mod_upper_bound; discriminate).
    lia.
Qed.

Lemma int_error (s : string) (e : exn) :
  int s = inl e -> e = invalid_literal s.
Proof.
  unfold int. destruct (int_signed (skip_spaces s)); [discriminate |].
  now intros [= <-].
Qed.

End Neighbours.

(** X11.  On a graph that is not empty, in which every qubit has at
    least one coupled qubit and all labels are digit texts, the cell
    yields, whatever the draw, a pair [(q1, q2)] in which [q1] is the
    number of a qubit of the graph and [q2] the number of the first
    qubit listed as coupled to it: the [cnot] is put on a coupled
    pair. *)
Theorem neighbouring_qubits_coupled (graph : connectivity) (rnd : nat) :
  graph <> [] ->
  (forall k ns, In (k, ns) graph ->
                digit_text k /\ ns <> [] /\ forall n, In n ns -> digit_text n) ->
  exists k n ns,
    In k (keys graph)
    /\ getitem graph k = inr (n :: ns)
    /\ neighbouring_qubits graph rnd = inr (decimal_value k, decimal_value n).
Proof.
  intros Hne Hwf.
  assert (Hkeys : keys graph <> []) by (destruct graph; [congruence | discriminate]).
  destruct (random_choice_In (keys graph) rnd Hkeys) as (k & Hchoice & Hin).
  destruct (getitem_In graph k Hin) as [ns Hns].
  destruct (Hwf k ns (getitem_inr_entry _ _ _ Hns)) as ([Hk1 Hk2] & Hnil & Hdigits).
  destruct ns as [| n ns]; [congruence |].
  destruct (Hdigits n (or_introl eq_refl)) as [Hn1 Hn2].
  exists k, n, ns. repeat split; auto.
  unfold neighbouring_qubits. rewrite Hchoice, Hns.
  cbn [list_index nth_error].
  now rewrite !int_digits_text.
Qed.

Lemma neighbouring_qubits_coupled_witness :
  exists k n ns,
    In k (keys graph_demo)
    /\ getitem graph_demo k = inr (n :: ns)
    /\ neighbouring_qubits graph_demo 5 = inr (decimal_value k, decimal_value n).
Proof.
  apply (neighbouring_qubits_coupled graph_demo 5).
  - discriminate.
  - intros k ns Hin. simpl in Hin.
    destruct Hin as [[= <- <-] | [[= <- <-] | [[= <- <-] | []]]];
      (split; [split; [discriminate | reflexivity] |]);
      (split; [discriminate |]);
      intros n Hn; simpl in Hn;
      repeat (destruct Hn as [<- | Hn]; [split; [discriminate | reflexivity] |]);
      destruct Hn.
Defined.

(** When the qubit drawn has no coupled qubit listed, the cell ends in
    the IndexError of taking element 0 of an empty list, before any label
    is converted. *)
Example neighbouring_qubits_isolated :
  neighbouring_qubits graph_isolated 1
  = inl (IndexError "list index out of range").
Proof. reflexivity. Qed.

(** X12.  What the three assignments do on every graph and draw.  On
    an empty graph [random.choice] raises its IndexError.  Otherwise the
    qubit drawn is a key of the graph, so looking it up never raises
    KeyError; if it lists no coupled qubit, element 0 raises IndexError
    before any label is converted; if it lists one, the label of the
    first coupled qubit goes to [int] first, the label drawn second, and
    the first failure is the one raised. *)
Theorem neighbouring_qubits_cases (graph : connectivity) (rnd : nat) :
  (graph = [] ->
   neighbouring_qubits graph rnd
   = inl (IndexError "Cannot choose from an empty sequence"))
  /\ (graph <> [] ->
      exists k ns,
        In k (keys graph)
        /\ random_choice (keys graph) rnd = inr k
        /\ getitem graph k = inr ns
        /\ neighbouring_qubits graph rnd
           = match ns with
             | [] => inl (IndexError "list index out of range")
             | n :: _ =>
                 match int n with
                 | inl e => inl e
                 | inr q2 =>
                     match int k with
                     | inl e => inl e
                     | inr q1 => inr (q1, q2)
                     end
                 end
             end).
Proof.
  split.
  - intros ->. reflexivity.
  - intros Hne.
    assert (Hkeys : keys graph <> [])
      by (destruct graph; [congruence | discriminate]).
    destruct (random_choice_In (keys graph) rnd Hkeys) as (k & Hchoice & Hin).
    destruct (getitem_In graph k Hin) as [ns Hns].
    exists k, ns. repeat split; auto.
    unfold neighbouring_qubits. rewrite Hchoice, Hns.
    destruct ns as [| n ns]; reflexivity.
Qed.

Lemma neighbouring_qubits_cases_witness :
  graph_isolated <> []
  /\ exists k ns,
       In k (keys graph_isolated)
       /\ random_choice (keys graph_isolated) 1 = inr k
       /\ getitem graph_isolated k = inr ns
       /\ neighbouring_qubits graph_isolated 1
          = match ns with
            | [] => inl (IndexError "list index out of range")
            | n :: _ =>
                match int n with
                | inl e => inl e
                | inr q2 =>
                    match int k with
                    | inl e => inl e
                    | inr q1 => inr (q1, q2)
                    end
                end
            end.
Proof.
  assert (Hne : graph_isolated <> []) by discriminate.
  split; [exact Hne |].
  exact (proj2 (neighbouring_qubits_cases graph_isolated 1) Hne).
Defined.
